(** * The discovery event pipeline of the control plane: [DiscoverySink]

    A shallow embedding of
    [components/konvoy-control-plane/pkg/core/discovery/sink.go].

    A [*DiscoverySink] is a pointer to a heap object with one field,
    [Consumer], an interface value.  The four event methods test that
    field against [nil] and, when it is set, make one dynamically
    dispatched call on it; [AddConsumer] assigns the field.

    Pointers are locations of a finite map; an interface value is
    [None] (the nil interface) or the implementation it holds.  The
    implementations of [DiscoveryConsumer] are [*DiscoverySink] itself
    and the consumers written elsewhere, which are given by the effect of
    their four methods on the memory they can reach.  Method calls on a
    chain of sinks nest, so the methods recurse on a bound for the depth
    of the call stack.

    The second part embeds package [tls] ([NewSelfSignedCert] and its
    helpers) over a record of the library functions it calls. *)

From stdpp Require Import gmap strings list fin_maps.

Abbreviation loc := nat.

(** ** Data model *)

(** Modelled from the spec: [core.NamespacedName], declared in package
    [core], outside the files at hand: a two-part identifier (namespace,
    name) compared field by field. *)
Record NamespacedName : Type := {
  Namespace : string;
  Name : string
}.

(** One event is one call of a [DiscoveryConsumer] method with its
    argument.  [svc] and [wrk] are the Go pointers [*ServiceInfo] and
    [*WorkloadInfo]. *)
Inductive Event : Type :=
  | ServiceUpdate (svc : loc)
  | ServiceDelete (name : NamespacedName)
  | WorkloadUpdate (wrk : loc)
  | WorkloadDelete (name : NamespacedName).

Inductive SinkState : Type :=
  | Unwired
  | Wired.

Section Model.

(** [ServiceInfo] and [WorkloadInfo] are declared elsewhere in package
    [discovery]; the sink only passes pointers to them.  [Err] is the
    type of non-nil [error] values, [Ext] names the consumers other
    than sinks and [Private] is the memory those consumers own. *)
Context {ServiceInfo WorkloadInfo Err Ext Private : Type}.

(** The dynamic type and value held by a non-nil [DiscoveryConsumer]. *)
Inductive Impl : Type :=
  | SinkImpl (p : loc)
  | OtherImpl (c : Ext).

(** The interface type: [None] is [nil]. *)
Definition DiscoveryConsumer : Type := option Impl.

(** [type DiscoverySink struct { Consumer DiscoveryConsumer }] *)
Record DiscoverySink : Type := {
  Consumer : DiscoveryConsumer
}.

(** The zero value [DiscoverySink{}]. *)
Definition emptySink : DiscoverySink := {| Consumer := None |}.

(** What a consumer can reach through the arguments it is handed and
    through its own fields: the payload objects and its own memory.  A
    consumer is handed no sink and is taken to hold none, so the heap of
    sinks is not part of it. *)
Record Env : Type := {
  services : gmap loc ServiceInfo;
  workloads : gmap loc WorkloadInfo;
  private : Private
}.

(** One interface method call made by the sink at [caller]. *)
Record Call : Type := {
  caller : loc;
  callee : Impl;
  event : Event
}.

(** The heap of sinks, the rest of the memory, and the history of the
    calls the sinks have made. *)
Record World : Type := {
  sinks : gmap loc DiscoverySink;
  env : Env;
  calls : list Call
}.

(** The Go [error] result: [None] is [nil]. *)
Definition error : Type := option Err.

Inductive Outcome : Type :=
  | Returned (w : World) (err : error)
  | Panicked
  | OutOfFuel.

(** The method [c.OnK] of a consumer [c] that is not a sink: [None]
    when it panics. *)
Variable handler : Ext -> Event -> Env -> option (Env * error).

Definition deliver (c : Ext) (e : Event) (w : World) : Outcome :=
  match handler c e (env w) with
  | Some (env', err) =>
      Returned {| sinks := sinks w; env := env'; calls := calls w |} err
  | None => Panicked
  end.

Definition record (s : loc) (c : Impl) (e : Event) (w : World) : World :=
  {| sinks := sinks w;
     env := env w;
     calls := calls w ++ [ {| caller := s; callee := c; event := e |} ] |}.

(** Dynamic dispatch of a method call on the interface value [c]:
    [method] is the body for a [*DiscoverySink] receiver. *)
Definition dispatch (method : loc -> World -> Outcome)
    (c : Impl) (e : Event) (w : World) : Outcome :=
  match c with
  | SinkImpl p => method p w
  | OtherImpl x => deliver x e w
  end.

(** [func (s *DiscoverySink) AddConsumer(c DiscoveryConsumer)]:
    [None] is the panic of a nil receiver. *)
Definition AddConsumer (s : loc) (c : DiscoveryConsumer) (w : World)
    : option World :=
  match sinks w !! s with
  | None => None
  | Some _ =>
      Some {| sinks := <[s := {| Consumer := c |}]> (sinks w);
              env := env w;
              calls := calls w |}
  end.

(** [func (s *DiscoverySink) OnServiceUpdate(svc *ServiceInfo) error] *)
Fixpoint OnServiceUpdate (fuel : nat) (s : loc) (svc : loc) (w : World)
    : Outcome :=
  match fuel with
  | O => OutOfFuel
  | S fuel' =>
      match sinks w !! s with
      | None => Panicked
      | Some d =>
          match Consumer d with
          | Some c =>
              dispatch (fun p => OnServiceUpdate fuel' p svc)
                c (ServiceUpdate svc) (record s c (ServiceUpdate svc) w)
          | None => Returned w None
          end
      end
  end.

(** [func (s *DiscoverySink) OnServiceDelete(name core.NamespacedName) error] *)
Fixpoint OnServiceDelete (fuel : nat) (s : loc) (name : NamespacedName)
    (w : World) : Outcome :=
  match fuel with
  | O => OutOfFuel
  | S fuel' =>
      match sinks w !! s with
      | None => Panicked
      | Some d =>
          match Consumer d with
          | Some c =>
              dispatch (fun p => OnServiceDelete fuel' p name)
                c (ServiceDelete name) (record s c (ServiceDelete name) w)
          | None => Returned w None
          end
      end
  end.

(** [func (s *DiscoverySink) OnWorkloadUpdate(wrk *WorkloadInfo) error] *)
Fixpoint OnWorkloadUpdate (fuel : nat) (s : loc) (wrk : loc) (w : World)
    : Outcome :=
  match fuel with
  | O => OutOfFuel
  | S fuel' =>
      match sinks w !! s with
      | None => Panicked
      | Some d =>
          match Consumer d with
          | Some c =>
              dispatch (fun p => OnWorkloadUpdate fuel' p wrk)
                c (WorkloadUpdate wrk) (record s c (WorkloadUpdate wrk) w)
          | None => Returned w None
          end
      end
  end.

(** [func (s *DiscoverySink) OnWorkloadDelete(name core.NamespacedName) error] *)
Fixpoint OnWorkloadDelete (fuel : nat) (s : loc) (name : NamespacedName)
    (w : World) : Outcome :=
  match fuel with
  | O => OutOfFuel
  | S fuel' =>
      match sinks w !! s with
      | None => Panicked
      | Some d =>
          match Consumer d with
          | Some c =>
              dispatch (fun p => OnWorkloadDelete fuel' p name)
                c (WorkloadDelete name) (record s c (WorkloadDelete name) w)
          | None => Returned w None
          end
      end
  end.

(** [s.OnK(P)] for the event kind and payload of [e]. *)
Definition On (fuel : nat) (s : loc) (e : Event) (w : World) : Outcome :=
  match e with
  | ServiceUpdate svc => OnServiceUpdate fuel s svc w
  | ServiceDelete name => OnServiceDelete fuel s name w
  | WorkloadUpdate wrk => OnWorkloadUpdate fuel s wrk w
  | WorkloadDelete name => OnWorkloadDelete fuel s name w
  end.

(** [c.OnK(P)] on an interface value [c], whatever it holds. *)
Definition invoke (fuel : nat) (c : Impl) (e : Event) (w : World)
    : Outcome :=
  dispatch (fun p => On fuel p e) c e w.

(** ** Sequences of calls *)





(** ** The two states of a sink *)

Definition state_of (d : DiscoverySink) : SinkState :=
  match Consumer d with
  | None => Unwired
  | Some _ => Wired
  end.

Definition sink_state (s : loc) (w : World) : option SinkState :=
  state_of <$> sinks w !! s.

(** The operations of the public interface, each on a sink of the heap. *)
Inductive Op : Type :=
  | OpAddConsumer (s : loc) (c : DiscoveryConsumer)
  | OpEvent (s : loc) (e : Event).

Definition step (fuel : nat) (op : Op) (w : World) : option World :=
  match op with
  | OpAddConsumer s c => AddConsumer s c w
  | OpEvent s e =>
      match On fuel s e w with
      | Returned w' _ => Some w'
      | Panicked | OutOfFuel => None
      end
  end.

Fixpoint steps (fuel : nat) (ops : list Op) (w : World) : option World :=
  match ops with
  | [] => Some w
  | op :: ops' =>
      match step fuel op w with
      | Some w' => steps fuel ops' w'
      | None => None
      end
  end.

(** An operation that detaches the consumer of [s]. *)
Definition detaches (s : loc) (op : Op) : Prop :=
  op = OpAddConsumer s None.

End Model.

(** ** A concrete pipeline

    The consumers of the example scenario: [logConsumer] notes every
    event it is handed and succeeds; [snapshotStore] is unavailable and
    fails every event. *)

Inductive Terminal : Type :=
  | logConsumer
  | snapshotStore.

Definition unavailable : string := "snapshot store unavailable".

Definition terminal_handler (c : Terminal) (e : Event)
    (en : @Env string string (list Event))
    : option (@Env string string (list Event) * @error string) :=
  match c with
  | logConsumer =>
      Some ({| services := services en;
               workloads := workloads en;
               private := private en ++ [e] |}, None)
  | snapshotStore => Some (en, Some unavailable)
  end.

(** A consumer that writes through the pointer it is handed. *)
Definition relabel_handler (c : unit) (e : Event)
    (en : @Env string string (list Event))
    : option (@Env string string (list Event) * @error string) :=
  match e with
  | ServiceUpdate svc =>
      Some ({| services := <[svc := "relabelled"]> (services en);
               workloads := workloads en;
               private := private en |}, None)
  | _ => Some (en, None)
  end.

Definition svc1 : NamespacedName := {| Namespace := "ns1"; Name := "svc1" |}.

Definition env0 : @Env string string (list Event) :=
  {| services := {[ 7 := "web" ]};
     workloads := {[ 8 := "web-0" ]};
     private := [] |}.

(** [sink := DiscoverySink{}] at address 1, nothing else. *)
Definition fresh : @World string string Terminal (list Event) :=
  {| sinks := {[ 1 := emptySink ]}; env := env0; calls := [] |}.

(** Sink 1 wired to [c]. *)
Definition wired_to (c : Terminal) : @World string string Terminal (list Event) :=
  {| sinks := {[ 1 := {| Consumer := Some (OtherImpl c) |} ]};
     env := env0;
     calls := [] |}.

(** Sink 1 wired to the consumer of [relabel_handler]. *)
Definition wired_to_relabel : @World string string unit (list Event) :=
  {| sinks := {[ 1 := {| Consumer := Some (OtherImpl tt) |} ]};
     env := env0;
     calls := [] |}.

(** Sink 1 wired to sink 2, sink 2 wired to [c]. *)
Definition chain_to (c : Terminal) : @World string string Terminal (list Event) :=
  {| sinks := {[ 1 := {| Consumer := Some (SinkImpl 2) |};
                 2 := {| Consumer := Some (OtherImpl c) |} ]};
     env := env0;
     calls := [] |}.

(** ** Pipelines of sinks *)

Section Chains.

Context {Ext : Type}.

(** The sinks at [path] are wired each to the next, and the last of them
    holds [final] in its [Consumer] field. *)
Fixpoint linked (m : gmap loc (@DiscoverySink Ext)) (path : list loc)
    (final : @DiscoveryConsumer Ext) : Prop :=
  match path with
  | [] => True
  | s :: rest =>
      m !! s = Some {| Consumer := match rest with
                                   | [] => final
                                   | t :: _ => Some (SinkImpl t)
                                   end |} /\
      linked m rest final
  end.

(** The calls from each sink of [path] to the next one. *)
Fixpoint links (path : list loc) (e : Event) : list (@Call Ext) :=
  match path with
  | s :: (t :: _) as rest =>
      {| caller := s; callee := SinkImpl t; event := e |} :: links rest e
  | _ => []
  end.

(** Every sink of [ring] is wired to a sink of [ring]. *)
Definition closed (m : gmap loc (@DiscoverySink Ext)) (ring : loc -> Prop)
    : Prop :=
  forall p, ring p ->
    exists q, m !! p = Some {| Consumer := Some (SinkImpl q) |} /\ ring q.



End Chains.

(** Three sinks in a row, the last one unwired. *)
Definition open_ended : @World string string Terminal (list Event) :=
  {| sinks := {[ 1 := {| Consumer := Some (SinkImpl 2) |};
                 2 := {| Consumer := Some (SinkImpl 3) |};
                 3 := emptySink ]};
     env := env0;
     calls := [] |}.

(** Sink 1 wired to sink 2, sink 2 holding a nil [*DiscoverySink]. *)
Definition nil_ended : @World string string Terminal (list Event) :=
  {| sinks := {[ 1 := {| Consumer := Some (SinkImpl 2) |};
                 2 := {| Consumer := Some (SinkImpl 0) |} ]};
     env := env0;
     calls := [] |}.

(** Sink 1 wired to sink 2 and sink 2 back to sink 1. *)
Definition ring12 : @World string string Terminal (list Event) :=
  {| sinks := {[ 1 := {| Consumer := Some (SinkImpl 2) |};
                 2 := {| Consumer := Some (SinkImpl 1) |} ]};
     env := env0;
     calls := [] |}.


(** * Self-signed certificates: package [tls]

    [NewSelfSignedCert] and its helpers call into [crypto/ecdsa],
    [crypto/x509], [crypto/rand], [encoding/pem], [time] and
    [github.com/pkg/errors].  Those packages are a record of functions;
    [rand.Reader] and the clock are the state [Sys] that the calls which
    read them pass on.  A Go result [(v, err)] is the pair of [v] and an
    optional error; a nil slice is the empty list. *)

Abbreviation bytes := (list Byte.byte).

Section TLSModel.

Context {Sys Curve PrivateKey PublicKey Time Err : Type}.

(** The fields of [x509.Certificate] that [newCert] sets; [SerialNumber]
    is a [*big.Int], nil in the zero value. *)
Record Certificate : Type := {
  SerialNumber : option Z;
  Subject_CommonName : string;
  NotBefore : Time;
  NotAfter : Time;
  IsCA : bool;
  KeyUsage : Z;
  ExtKeyUsage : list Z;
  BasicConstraintsValid : bool
}.

(** The functions and constants of the imported packages.  A call that
    can fail gives its value or its error. *)
Record Lib : Type := {
  elliptic_P256 : Curve;
  ecdsa_GenerateKey : Curve -> Sys -> (PrivateKey + Err) * Sys;
  key_PublicKey : PrivateKey -> PublicKey;
  time_Now : Sys -> Time * Sys;
  time_Add : Time -> Z -> Time;
  time_Hour : Z;
  time_zero : Time;
  rand_Int : Z -> Sys -> (Z + Err) * Sys;
  x509_CreateCertificate :
    Certificate -> Certificate -> PublicKey -> PrivateKey -> Sys ->
    (bytes + Err) * Sys;
  x509_MarshalECPrivateKey : PrivateKey -> bytes + Err;
  x509_KeyUsageKeyEncipherment : Z;
  x509_KeyUsageDigitalSignature : Z;
  x509_KeyUsageCertSign : Z;
  x509_ExtKeyUsageServerAuth : Z;
  pem_Encode : string -> bytes -> bytes + Err;
  errors_Wrap : Err -> string -> Err
}.

(** The package variables [DefaultEllipticCurve] and
    [DefaultValidityPeriod]. *)
Record Vars : Type := {
  DefaultEllipticCurve : Curve;
  DefaultValidityPeriod : Z
}.

Variable L : Lib.

(** Their initial values, [elliptic.P256()] and [365 * 24 * time.Hour]. *)
Definition initVars : Vars :=
  {| DefaultEllipticCurve := elliptic_P256 L;
     DefaultValidityPeriod := 365 * 24 * time_Hour L |}.

Variable g : Vars.

(** [type KeyPair struct { CertPEM []byte; KeyPEM []byte }] *)
Record KeyPair : Type := {
  CertPEM : bytes;
  KeyPEM : bytes
}.

(** [KeyPair{}] *)
Definition emptyKeyPair : KeyPair := {| CertPEM := []; KeyPEM := [] |}.

(** [x509.Certificate{}] *)
Definition emptyCertificate : Certificate :=
  {| SerialNumber := None;
     Subject_CommonName := "";
     NotBefore := time_zero L;
     NotAfter := time_zero L;
     IsCA := false;
     KeyUsage := 0;
     ExtKeyUsage := [];
     BasicConstraintsValid := false |}.

(** [func newCert(commonName string) (x509.Certificate, error)] *)
Definition newCert (commonName : string) (sys : Sys)
    : (Certificate * option Err) * Sys :=
  let '(notBefore, sys) := time_Now L sys in
  let notAfter := time_Add L notBefore (DefaultValidityPeriod g) in
  let serialNumberLimit := Z.shiftl 1 128 in
  match rand_Int L serialNumberLimit sys with
  | (inr err, sys) =>
      ((emptyCertificate,
        Some (errors_Wrap L err "failed to generate serial number")), sys)
  | (inl serialNumber, sys) =>
      (({| SerialNumber := Some serialNumber;
           Subject_CommonName := commonName;
           NotBefore := notBefore;
           NotAfter := notAfter;
           IsCA := true;
           KeyUsage :=
             Z.lor (Z.lor (x509_KeyUsageKeyEncipherment L)
                          (x509_KeyUsageDigitalSignature L))
                   (x509_KeyUsageCertSign L);
           ExtKeyUsage := [x509_ExtKeyUsageServerAuth L];
           BasicConstraintsValid := true |}, None), sys)
  end.

(** [func generateCert(commonName string, key *ecdsa.PrivateKey) ([]byte, error)] *)
Definition generateCert (commonName : string) (key : PrivateKey) (sys : Sys)
    : (bytes * option Err) * Sys :=
  match newCert commonName sys with
  | ((_, Some err), sys) => (([], Some err), sys)
  | ((csr, None), sys) =>
      match x509_CreateCertificate L csr csr (key_PublicKey L key) key sys with
      | (inr err, sys) =>
          (([], Some (errors_Wrap L err "failed to generate TLS certificate")),
           sys)
      | (inl certDerBytes, sys) =>
          match pem_Encode L "CERTIFICATE" certDerBytes with
          | inr err =>
              (([], Some (errors_Wrap L err
                            "failed to PEM encode TLS certificate")), sys)
          | inl certBuf => ((certBuf, None), sys)
          end
      end
  end.

(** [func marshalKey(key *ecdsa.PrivateKey) ([]byte, error)] *)
Definition marshalKey (key : PrivateKey) : bytes * option Err :=
  match x509_MarshalECPrivateKey L key with
  | inr err => ([], Some (errors_Wrap L err "failed to marshal TLS key"))
  | inl keyDerBytes =>
      match pem_Encode L "EC PRIVATE KEY" keyDerBytes with
      | inr err =>
          ([], Some (errors_Wrap L err "failed to PEM encode TLS key"))
      | inl keyBuf => (keyBuf, None)
      end
  end.

(** [func NewSelfSignedCert(commonName string) (KeyPair, error)] *)
Definition NewSelfSignedCert (commonName : string) (sys : Sys)
    : (KeyPair * option Err) * Sys :=
  match ecdsa_GenerateKey L (DefaultEllipticCurve g) sys with
  | (inr err, sys) =>
      ((emptyKeyPair, Some (errors_Wrap L err "failed to generate TLS key")),
       sys)
  | (inl key, sys) =>
      match generateCert commonName key sys with
      | ((_, Some err), sys) => ((emptyKeyPair, Some err), sys)
      | ((certBytes, None), sys) =>
          match marshalKey key with
          | (_, Some err) => ((emptyKeyPair, Some err), sys)
          | (keyBytes, None) =>
              (({| CertPEM := certBytes; KeyPEM := keyBytes |}, None), sys)
          end
      end
  end.

(** The template [newCert] fills in for [commonName] at the time [now]
    with the serial number [serial]. *)
Definition template (commonName : string) (now : Time) (serial : Z)
    : Certificate :=
  {| SerialNumber := Some serial;
     Subject_CommonName := commonName;
     NotBefore := now;
     NotAfter := time_Add L now (DefaultValidityPeriod g);
     IsCA := true;
     KeyUsage :=
       Z.lor (Z.lor (x509_KeyUsageKeyEncipherment L)
                    (x509_KeyUsageDigitalSignature L))
             (x509_KeyUsageCertSign L);
     ExtKeyUsage := [x509_ExtKeyUsageServerAuth L];
     BasicConstraintsValid := true |}.

(** The ways [NewSelfSignedCert] has to fail, one for each library call
    that can: the calls before it succeeded, the call failed with
    [cause], and the state is the one that call left. *)
Inductive failure (commonName : string) (sys : Sys) : Err -> Sys -> Prop :=
  | failed_GenerateKey cause sys' :
      ecdsa_GenerateKey L (DefaultEllipticCurve g) sys = (inr cause, sys') ->
      failure commonName sys
        (errors_Wrap L cause "failed to generate TLS key") sys'
  | failed_Int key sys1 now sys2 cause sys' :
      ecdsa_GenerateKey L (DefaultEllipticCurve g) sys = (inl key, sys1) ->
      time_Now L sys1 = (now, sys2) ->
      rand_Int L (2 ^ 128) sys2 = (inr cause, sys') ->
      failure commonName sys
        (errors_Wrap L cause "failed to generate serial number") sys'
  | failed_CreateCertificate key sys1 now sys2 serial sys3 cause sys' :
      ecdsa_GenerateKey L (DefaultEllipticCurve g) sys = (inl key, sys1) ->
      time_Now L sys1 = (now, sys2) ->
      rand_Int L (2 ^ 128) sys2 = (inl serial, sys3) ->
      x509_CreateCertificate L
        (template commonName now serial) (template commonName now serial)
        (key_PublicKey L key) key sys3 = (inr cause, sys') ->
      failure commonName sys
        (errors_Wrap L cause "failed to generate TLS certificate") sys'
  | failed_Encode_cert key sys1 now sys2 serial sys3 der cause sys' :
      ecdsa_GenerateKey L (DefaultEllipticCurve g) sys = (inl key, sys1) ->
      time_Now L sys1 = (now, sys2) ->
      rand_Int L (2 ^ 128) sys2 = (inl serial, sys3) ->
      x509_CreateCertificate L
        (template commonName now serial) (template commonName now serial)
        (key_PublicKey L key) key sys3 = (inl der, sys') ->
      pem_Encode L "CERTIFICATE" der = inr cause ->
      failure commonName sys
        (errors_Wrap L cause "failed to PEM encode TLS certificate") sys'
  | failed_MarshalECPrivateKey key sys1 now sys2 serial sys3 der cert
      cause sys' :
      ecdsa_GenerateKey L (DefaultEllipticCurve g) sys = (inl key, sys1) ->
      time_Now L sys1 = (now, sys2) ->
      rand_Int L (2 ^ 128) sys2 = (inl serial, sys3) ->
      x509_CreateCertificate L
        (template commonName now serial) (template commonName now serial)
        (key_PublicKey L key) key sys3 = (inl der, sys') ->
      pem_Encode L "CERTIFICATE" der = inl cert ->
      x509_MarshalECPrivateKey L key = inr cause ->
      failure commonName sys
        (errors_Wrap L cause "failed to marshal TLS key") sys'
  | failed_Encode_key key sys1 now sys2 serial sys3 der cert keyDer
      cause sys' :
      ecdsa_GenerateKey L (DefaultEllipticCurve g) sys = (inl key, sys1) ->
      time_Now L sys1 = (now, sys2) ->
      rand_Int L (2 ^ 128) sys2 = (inl serial, sys3) ->
      x509_CreateCertificate L
        (template commonName now serial) (template commonName now serial)
        (key_PublicKey L key) key sys3 = (inl der, sys') ->
      pem_Encode L "CERTIFICATE" der = inl cert ->
      x509_MarshalECPrivateKey L key = inl keyDer ->
      pem_Encode L "EC PRIVATE KEY" keyDer = inr cause ->
      failure commonName sys
        (errors_Wrap L cause "failed to PEM encode TLS key") sys'.

(** The one way to succeed: every call did, and the pair is the PEM of
    the certificate made for the key and the PEM of that key. *)
Definition issued (commonName : string) (sys : Sys) (kp : KeyPair)
    (sys' : Sys) : Prop :=
  exists key sys1 now sys2 serial sys3 der keyDer,
    ecdsa_GenerateKey L (DefaultEllipticCurve g) sys = (inl key, sys1) /\
    time_Now L sys1 = (now, sys2) /\
    rand_Int L (2 ^ 128) sys2 = (inl serial, sys3) /\
    x509_CreateCertificate L
      (template commonName now serial) (template commonName now serial)
      (key_PublicKey L key) key sys3 = (inl der, sys') /\
    pem_Encode L "CERTIFICATE" der = inl (CertPEM kp) /\
    x509_MarshalECPrivateKey L key = inl keyDer /\
    pem_Encode L "EC PRIVATE KEY" keyDer = inl (KeyPEM kp).

End TLSModel.

(** A library to run the package on: the state is the entropy left, a
    call that needs entropy takes one unit and fails when there is none,
    the clock shows the entropy left and PEM encoding fails on an empty
    block. *)
Definition exhausted : string := "entropy exhausted".

Definition toyLib : @Lib nat unit nat nat Z string :=
  {| elliptic_P256 := tt;
     ecdsa_GenerateKey := fun _ sys =>
       match sys with
       | O => (inr exhausted, O)
       | S n => (inl n, n)
       end;
     key_PublicKey := fun key => key;
     time_Now := fun sys => (Z.of_nat sys, sys);
     time_Add := fun t d => (t + d)%Z;
     time_Hour := 3600000000000%Z;
     time_zero := 0%Z;
     rand_Int := fun max sys =>
       match sys with
       | O => (inr exhausted, O)
       | S n => (inl (Z.of_nat n mod max)%Z, n)
       end;
     x509_CreateCertificate := fun template parent pub priv sys =>
       match sys with
       | O => (inr exhausted, O)
       | S n => (inl [Byte.x30; Byte.x82], n)
       end;
     x509_MarshalECPrivateKey := fun key => inl [Byte.x30; Byte.x77];
     x509_KeyUsageKeyEncipherment := 4%Z;
     x509_KeyUsageDigitalSignature := 1%Z;
     x509_KeyUsageCertSign := 32%Z;
     x509_ExtKeyUsageServerAuth := 1%Z;
     pem_Encode := fun type der =>
       match der with
       | [] => inr "empty block"
       | _ => inl (Byte.x2d :: der)
       end;
     errors_Wrap := fun err message => message +:+ ": " +:+ err |}.

(** * Consumers that hold sinks

    Nothing keeps a consumer from holding a pointer to a sink upstream of
    it and calling [AddConsumer] on that sink, or pushing events into it,
    while it handles an event.  Here the method of a consumer that is not
    a sink acts on the whole world, the heap of sinks and the history of
    calls included, and the four methods of [sink.go] are embedded over
    that.  The consumers of the first part are the case [lift]. *)

Module Reentrant.

Section ReentrantModel.

Context {ServiceInfo WorkloadInfo Err Ext Private : Type}.

Local Abbreviation World := (@World ServiceInfo WorkloadInfo Ext Private).
Local Abbreviation Outcome :=
  (@Outcome ServiceInfo WorkloadInfo Err Ext Private).
Local Abbreviation Env := (@Env ServiceInfo WorkloadInfo Private).

(** The method [c.OnK] of a consumer [c] that is not a sink: [None]
    when it panics. *)
Variable handler : Ext -> Event -> World -> option (World * @error Err).

Definition deliver (c : Ext) (e : Event) (w : World) : Outcome :=
  match handler c e w with
  | Some (w', err) => Returned w' err
  | None => Panicked
  end.

(** Dynamic dispatch of a method call on the interface value [c]:
    [method] is the body for a [*DiscoverySink] receiver. *)
Definition dispatch (method : loc -> World -> Outcome)
    (c : @Impl Ext) (e : Event) (w : World) : Outcome :=
  match c with
  | SinkImpl p => method p w
  | OtherImpl x => deliver x e w
  end.

(** [func (s *DiscoverySink) OnServiceUpdate(svc *ServiceInfo) error] *)
Fixpoint OnServiceUpdate (fuel : nat) (s : loc) (svc : loc) (w : World)
    : Outcome :=
  match fuel with
  | O => OutOfFuel
  | S fuel' =>
      match sinks w !! s with
      | None => Panicked
      | Some d =>
          match Consumer d with
          | Some c =>
              dispatch (fun p => OnServiceUpdate fuel' p svc)
                c (ServiceUpdate svc) (record s c (ServiceUpdate svc) w)
          | None => Returned w None
          end
      end
  end.

(** [func (s *DiscoverySink) OnServiceDelete(name core.NamespacedName) error] *)
Fixpoint OnServiceDelete (fuel : nat) (s : loc) (name : NamespacedName)
    (w : World) : Outcome :=
  match fuel with
  | O => OutOfFuel
  | S fuel' =>
      match sinks w !! s with
      | None => Panicked
      | Some d =>
          match Consumer d with
          | Some c =>
              dispatch (fun p => OnServiceDelete fuel' p name)
                c (ServiceDelete name) (record s c (ServiceDelete name) w)
          | None => Returned w None
          end
      end
  end.

(** [func (s *DiscoverySink) OnWorkloadUpdate(wrk *WorkloadInfo) error] *)
Fixpoint OnWorkloadUpdate (fuel : nat) (s : loc) (wrk : loc) (w : World)
    : Outcome :=
  match fuel with
  | O => OutOfFuel
  | S fuel' =>
      match sinks w !! s with
      | None => Panicked
      | Some d =>
          match Consumer d with
          | Some c =>
              dispatch (fun p => OnWorkloadUpdate fuel' p wrk)
                c (WorkloadUpdate wrk) (record s c (WorkloadUpdate wrk) w)
          | None => Returned w None
          end
      end
  end.

(** [func (s *DiscoverySink) OnWorkloadDelete(name core.NamespacedName) error] *)
Fixpoint OnWorkloadDelete (fuel : nat) (s : loc) (name : NamespacedName)
    (w : World) : Outcome :=
  match fuel with
  | O => OutOfFuel
  | S fuel' =>
      match sinks w !! s with
      | None => Panicked
      | Some d =>
          match Consumer d with
          | Some c =>
              dispatch (fun p => OnWorkloadDelete fuel' p name)
                c (WorkloadDelete name) (record s c (WorkloadDelete name) w)
          | None => Returned w None
          end
      end
  end.

(** [s.OnK(P)] for the event kind and payload of [e]. *)
Definition On (fuel : nat) (s : loc) (e : Event) (w : World) : Outcome :=
  match e with
  | ServiceUpdate svc => OnServiceUpdate fuel s svc w
  | ServiceDelete name => OnServiceDelete fuel s name w
  | WorkloadUpdate wrk => OnWorkloadUpdate fuel s wrk w
  | WorkloadDelete name => OnWorkloadDelete fuel s name w
  end.

(** [c.OnK(P)] on an interface value [c], whatever it holds. *)
Definition invoke (fuel : nat) (c : @Impl Ext) (e : Event) (w : World)
    : Outcome :=
  dispatch (fun p => On fuel p e) c e w.

(** One operation of the public interface, called from outside. *)
Definition step (fuel : nat) (op : @Op Ext) (w : World) : option World :=
  match op with
  | OpAddConsumer s c => AddConsumer s c w
  | OpEvent s e =>
      match On fuel s e w with
      | Returned w' _ => Some w'
      | Panicked | OutOfFuel => None
      end
  end.

Fixpoint steps (fuel : nat) (ops : list (@Op Ext)) (w : World)
    : option World :=
  match ops with
  | [] => Some w
  | op :: ops' =>
      match step fuel op w with
      | Some w' => steps fuel ops' w'
      | None => None
      end
  end.

(** A consumer that holds no sink: its method acts on the memory it can
    reach and leaves the sinks and the history of calls alone. *)
Definition lift (h : Ext -> Event -> Env -> option (Env * @error Err))
    (c : Ext) (e : Event) (w : World) : option (World * @error Err) :=
  match h c e (env w) with
  | Some (env', err) =>
      Some ({| sinks := sinks w; env := env'; calls := calls w |}, err)
  | None => None
  end.

End ReentrantModel.

End Reentrant.

(** A consumer that holds sink 1 and detaches itself from it on every
    event: [func (c *detacher) OnServiceUpdate(...) error {
    c.sink.AddConsumer(nil); return nil }], and so on. *)
Definition detach_handler (c : unit) (e : Event)
    (w : @World string string unit (list Event))
    : option (@World string string unit (list Event) * @error string) :=
  match AddConsumer 1 None w with
  | Some w' => Some (w', None)
  | None => None
  end.

(** Two consumers: [true] holds sink 1 and hands it over to [false] on
    every event, [false] does nothing. *)
Definition handover_handler (c : bool) (e : Event)
    (w : @World string string bool (list Event))
    : option (@World string string bool (list Event) * @error string) :=
  if c then
    match AddConsumer 1 (Some (OtherImpl false)) w with
    | Some w' => Some (w', None)
    | None => None
    end
  else Some (w, None).

(** Sink 1 wired to the consumer of [detach_handler]. *)
Definition held_by_detacher : @World string string unit (list Event) :=
  {| sinks := {[ 1 := {| Consumer := Some (OtherImpl tt) |} ]};
     env := env0;
     calls := [] |}.

(** Sink 1 wired to the consumer [true] of [handover_handler]. *)
Definition held_by_first : @World string string bool (list Event) :=
  {| sinks := {[ 1 := {| Consumer := Some (OtherImpl true) |} ]};
     env := env0;
     calls := [] |}.

(** * Properties *)

Section Properties.

Context {ServiceInfo WorkloadInfo Err Ext Private : Type}.

Variable handler :
  Ext -> Event -> @Env ServiceInfo WorkloadInfo Private ->
  option (@Env ServiceInfo WorkloadInfo Private * @error Err).

Local Abbreviation World := (@World ServiceInfo WorkloadInfo Ext Private).
Local Abbreviation DiscoverySink := (@DiscoverySink Ext).
Local Abbreviation Impl := (@Impl Ext).
Local Abbreviation Env := (@Env ServiceInfo WorkloadInfo Private).
Local Abbreviation error := (@error Err).
Local Abbreviation Call := (@Call Ext).

Implicit Types (w : World) (d : DiscoverySink) (c : Impl) (e : Event).
Implicit Types (s p : nat) (fuel : nat).

(** ** The shape of every event method *)

(** All four methods have one body: dereference the receiver, test
    [Consumer] against nil, and make the one call. *)
Lemma On_unfold fuel s e w :
  On handler (S fuel) s e w =
  match sinks w !! s with
  | None => Panicked
  | Some d =>
      match Consumer d with
      | Some c => invoke handler fuel c e (record s c e w)
      | None => Returned w None
      end
  end.
Proof. destruct e; reflexivity. Qed.

Lemma On_zero s e w : On handler 0 s e w = OutOfFuel.
Proof. destruct e; reflexivity. Qed.

Lemma On_wired fuel s e w d c :
  sinks w !! s = Some d -> Consumer d = Some c ->
  On handler (S fuel) s e w = invoke handler fuel c e (record s c e w).
Proof. intros Hs Hc. rewrite On_unfold, Hs, Hc. reflexivity. Qed.

Lemma On_unwired fuel s e w d :
  sinks w !! s = Some d -> Consumer d = None ->
  On handler (S fuel) s e w = Returned w None.
Proof. intros Hs Hc. rewrite On_unfold, Hs, Hc. reflexivity. Qed.

Lemma deliver_inv x e w w' r :
  deliver handler x e w = Returned w' r ->
  handler x e (env w) = Some (env w', r) /\
  sinks w' = sinks w /\ calls w' = calls w.
Proof.
  unfold deliver. destruct (handler x e (env w)) as [[en' r']|]; [|discriminate].
  intros [= <- <-]. auto.
Qed.

(** What one event does to the world, whatever the chain of sinks it
    runs through: the sinks are left as they were, every call made is the
    call of a sink on its own consumer with the event itself, and the
    rest of the memory is touched by one consumer at most, which is
    handed the memory as the caller had it and whose error is the one
    returned. *)
Lemma On_inv fuel : forall s e w w' r,
  On handler fuel s e w = Returned w' r ->
  sinks w' = sinks w /\
  (exists new, calls w' = calls w ++ new /\
     Forall (fun k => event k = e /\
               exists d, sinks w !! caller k = Some d /\
                         Consumer d = Some (callee k)) new) /\
  ((env w' = env w /\ r = None) \/
   exists x, handler x e (env w) = Some (env w', r)).
Proof.
  induction fuel as [|fuel IH]; intros s e w w' r.
  - rewrite On_zero. discriminate.
  - rewrite On_unfold.
    destruct (sinks w !! s) as [d|] eqn:Hs; [|discriminate].
    destruct (Consumer d) as [c|] eqn:Hc.
    + destruct c as [p|x]; unfold invoke, dispatch.
      * intros H. apply IH in H as (Hsinks & (new & Hcalls & Hall) & Henv).
        simpl in *. split; [exact Hsinks|]. split; [|exact Henv].
        exists ({| caller := s; callee := SinkImpl p; event := e |} :: new).
        split; [rewrite Hcalls, <- app_assoc; reflexivity|].
        constructor; [|exact Hall]. simpl. split; [reflexivity|]. eauto.
      * intros H. apply deliver_inv in H as (Hh & Hsinks & Hcalls).
        simpl in *. split; [exact Hsinks|]. split; [|right; eauto].
        exists [ {| caller := s; callee := OtherImpl x; event := e |} ].
        split; [exact Hcalls|].
        constructor; [|constructor]. simpl. split; [reflexivity|]. eauto.
    + intros [= <- <-]. split; [reflexivity|]. split; [|left; auto].
      exists []. rewrite app_nil_r. split; [reflexivity|constructor].
Qed.


(** More stack never changes a result. *)
Lemma On_more_fuel fuel : forall s e w w' r,
  On handler fuel s e w = Returned w' r ->
  On handler (S fuel) s e w = Returned w' r.
Proof.
  induction fuel as [|fuel IH]; intros s e w w' r.
  - rewrite On_zero. discriminate.
  - rewrite (On_unfold (S fuel)), (On_unfold fuel).
    destruct (sinks w !! s) as [d|]; [|discriminate].
    destruct (Consumer d) as [[p|x]|]; unfold invoke, dispatch; auto.
Qed.

(** ** Claims *)

(** C1: for every event kind and payload, an event method called on a
    sink whose [Consumer] is nil returns a nil error and hands back the
    world as it was: no call is made and no sink is changed. *)
Theorem unwired_sink_is_noop fuel s d e w :
  sinks w !! s = Some d ->
  Consumer d = None ->
  On handler (S fuel) s e w = Returned w None.
Proof. apply On_unwired. Qed.

(** C2: for every event kind and payload, an event method called on a
    sink whose [Consumer] holds [c] makes exactly one call, of the same
    method of [c] with the same argument, and returns the outcome of
    that call as it is; when [c] is not a sink the call is its handler
    run once on the memory as the caller had it. *)
Theorem wired_sink_forwards_once fuel s d c e w :
  sinks w !! s = Some d ->
  Consumer d = Some c ->
  On handler (S fuel) s e w = invoke handler fuel c e (record s c e w) /\
  calls (record s c e w) =
    calls w ++ [ {| caller := s; callee := c; event := e |} ] /\
  forall x, c = OtherImpl x ->
    On handler (S fuel) s e w =
    match handler x e (env w) with
    | Some (en', r) =>
        Returned
          {| sinks := sinks w;
             env := en';
             calls := calls w ++
                      [ {| caller := s; callee := c; event := e |} ] |} r
    | None => Panicked
    end.
Proof.
  intros Hs Hc. split; [eapply On_wired; eassumption|].
  split; [reflexivity|].
  intros x ->. erewrite On_wired by eassumption. reflexivity.
Qed.

(** C3: an event method returns a non-nil error exactly when the sink
    has a consumer and the call on that consumer returned this error;
    and every error returned is the one some consumer that is not a sink
    produced on this event: the sink makes, wraps and drops none. *)
Theorem sink_errors_are_downstream_errors fuel s e w w' (err : Err) :
  (On handler fuel s e w = Returned w' (Some err) <->
   exists fuel' d c,
     fuel = S fuel' /\
     sinks w !! s = Some d /\
     Consumer d = Some c /\
     invoke handler fuel' c e (record s c e w) = Returned w' (Some err)) /\
  (On handler fuel s e w = Returned w' (Some err) ->
   exists x, handler x e (env w) = Some (env w', Some err)).
Proof.
  split.
  - split.
    + destruct fuel as [|fuel']; [rewrite On_zero; discriminate|].
      rewrite On_unfold.
      destruct (sinks w !! s) as [d|] eqn:Hs; [|discriminate].
      destruct (Consumer d) as [c|] eqn:Hc; [|discriminate].
      intros H. exists fuel', d, c. auto.
    + intros (fuel' & d & c & -> & Hs & Hc & H).
      erewrite On_wired by eassumption. exact H.
  - intros H. apply On_inv in H as (_ & _ & [[_ Hr]|Hx]);
      [discriminate|exact Hx].
Qed.

(** C4: after [AddConsumer(c1)] and then [AddConsumer(c2)] the sink
    holds [c2] and nothing of [c1]: the world is the one [AddConsumer(c2)]
    alone gives, every later event is forwarded by one call on [c2], no
    call the sink makes goes anywhere else, and when [c2] is not a sink
    that one call is the only call made. *)
Theorem AddConsumer_replaces s d (c1 c2 : option Impl) w :
  sinks w !! s = Some d ->
  exists w1 w2,
    AddConsumer s c1 w = Some w1 /\
    AddConsumer s c2 w1 = Some w2 /\
    AddConsumer s c2 w = Some w2 /\
    sinks w2 !! s = Some {| Consumer := c2 |} /\
    forall fuel e,
      On handler (S fuel) s e w2 =
        match c2 with
        | Some c => invoke handler fuel c e (record s c e w2)
        | None => Returned w2 None
        end /\
      (forall w' r,
         On handler fuel s e w2 = Returned w' r ->
         exists new,
           calls w' = calls w2 ++ new /\
           Forall (fun k => caller k = s -> Some (callee k) = c2) new) /\
      (forall x w' r,
         c2 = Some (OtherImpl x) ->
         On handler fuel s e w2 = Returned w' r ->
         calls w' = calls w2 ++
           [ {| caller := s; callee := OtherImpl x; event := e |} ]).
Proof.
  intros Hs.
  exists {| sinks := <[s := {| Consumer := c1 |}]> (sinks w);
            env := env w; calls := calls w |},
         {| sinks := <[s := {| Consumer := c2 |}]> (sinks w);
            env := env w; calls := calls w |}.
  unfold AddConsumer. rewrite Hs. simpl.
  rewrite lookup_insert_eq, insert_insert_eq.
  split; [reflexivity|]. split; [reflexivity|].
  split; [reflexivity|]. split; [apply lookup_insert_eq|].
  intros fuel e. split.
  - rewrite On_unfold. simpl. rewrite lookup_insert_eq. simpl.
    destruct c2; reflexivity.
  - split.
    + intros w' r H. apply On_inv in H as (_ & (new & Hcalls & Hall) & _).
      exists new. split; [exact Hcalls|].
      eapply Forall_impl; [exact Hall|].
      intros k (_ & d' & Hk & Hd') Hcaller. simpl in Hk.
      rewrite Hcaller, lookup_insert_eq in Hk. injection Hk as <-.
      simpl in Hd'. congruence.
    + intros x w' r ->. destruct fuel as [|fuel'];
        [rewrite On_zero; discriminate|].
      rewrite On_unfold. simpl. rewrite lookup_insert_eq. simpl.
      unfold invoke, dispatch. intros H.
      apply deliver_inv in H as (_ & _ & Hcalls). exact Hcalls.
Qed.

(** C9: [AddConsumer(nil)] is accepted and leaves the sink as the zero
    value [DiscoverySink{}]: every later event returns nil and hands back
    the world as it was, no call made. *)
Theorem AddConsumer_nil_detaches s d w :
  sinks w !! s = Some d ->
  exists w',
    AddConsumer s None w = Some w' /\
    sinks w' !! s = Some emptySink /\
    forall fuel e, On handler (S fuel) s e w' = Returned w' None.
Proof.
  intros Hs. unfold AddConsumer. rewrite Hs.
  eexists. split; [reflexivity|]. simpl.
  split; [apply lookup_insert_eq|].
  intros fuel e. rewrite On_unfold. simpl. rewrite lookup_insert_eq.
  reflexivity.
Qed.

(** C6: with sink [a] wired to sink [b] and [b] wired to the consumer
    [x], an event pushed into [a] reaches [x] once, with the event as it
    was pushed, and [a] returns what [x] returned; memory and result are
    those of pushing into [b], which forwards to [x] directly. *)
Theorem chained_sinks_forward_to_terminal fuel a b x da db e w :
  sinks w !! a = Some da ->
  Consumer da = Some (SinkImpl b) ->
  sinks w !! b = Some db ->
  Consumer db = Some (OtherImpl x) ->
  On handler (S (S fuel)) a e w =
    match handler x e (env w) with
    | Some (en', r) =>
        Returned
          {| sinks := sinks w;
             env := en';
             calls := calls w ++
               [ {| caller := a; callee := SinkImpl b; event := e |};
                 {| caller := b; callee := OtherImpl x; event := e |} ] |} r
    | None => Panicked
    end /\
  On handler (S fuel) b e w =
    match handler x e (env w) with
    | Some (en', r) =>
        Returned
          {| sinks := sinks w;
             env := en';
             calls := calls w ++
               [ {| caller := b; callee := OtherImpl x; event := e |} ] |} r
    | None => Panicked
    end.
Proof.
  intros Ha Hda Hb Hdb. split.
  - erewrite On_wired by eassumption. unfold invoke, dispatch.
    erewrite On_wired by (simpl; eassumption).
    unfold invoke, dispatch, deliver. simpl.
    destruct (handler x e (env w)) as [[en' r]|]; [|reflexivity].
    rewrite <- app_assoc. reflexivity.
  - erewrite On_wired by eassumption. reflexivity.
Qed.

(** ** Sequences *)





(** C8: [OnServiceUpdate] and [OnWorkloadUpdate] pass the pointer they
    are given and write nothing: every call made carries that pointer,
    the memory after the call is the memory before it or what the one
    consumer reached made of the memory before it, and the object pointed
    to reads the same afterwards whenever the consumers leave it alone. *)
Theorem sink_does_not_mutate_payload fuel s w w' r :
  (forall svc,
     OnServiceUpdate handler fuel s svc w = Returned w' r ->
     (exists new, calls w' = calls w ++ new /\
                  Forall (fun k => event k = ServiceUpdate svc) new) /\
     (env w' = env w \/
      exists x, handler x (ServiceUpdate svc) (env w) = Some (env w', r)) /\
     ((forall x en en' r',
         handler x (ServiceUpdate svc) en = Some (en', r') ->
         services en' !! svc = services en !! svc) ->
      services (env w') !! svc = services (env w) !! svc)) /\
  (forall wrk,
     OnWorkloadUpdate handler fuel s wrk w = Returned w' r ->
     (exists new, calls w' = calls w ++ new /\
                  Forall (fun k => event k = WorkloadUpdate wrk) new) /\
     (env w' = env w \/
      exists x, handler x (WorkloadUpdate wrk) (env w) = Some (env w', r)) /\
     ((forall x en en' r',
         handler x (WorkloadUpdate wrk) en = Some (en', r') ->
         workloads en' !! wrk = workloads en !! wrk) ->
      workloads (env w') !! wrk = workloads (env w) !! wrk)).
Proof.
  split.
  - intros svc H.
    apply (On_inv fuel s (ServiceUpdate svc)) in H
      as (_ & (new & Hcalls & Hall) & Henv).
    split; [|split].
    + exists new. split; [exact Hcalls|].
      eapply Forall_impl; [exact Hall|]. intros k [Hk _]. exact Hk.
    + destruct Henv as [[He _]|Hx]; auto.
    + intros Hframe. destruct Henv as [[He _]|[x Hx]].
      * rewrite He. reflexivity.
      * eapply Hframe. exact Hx.
  - intros wrk H.
    apply (On_inv fuel s (WorkloadUpdate wrk)) in H
      as (_ & (new & Hcalls & Hall) & Henv).
    split; [|split].
    + exists new. split; [exact Hcalls|].
      eapply Forall_impl; [exact Hall|]. intros k [Hk _]. exact Hk.
    + destruct Henv as [[He _]|Hx]; auto.
    + intros Hframe. destruct Henv as [[He _]|[x Hx]].
      * rewrite He. reflexivity.
      * eapply Hframe. exact Hx.
Qed.

End Properties.

(** * The claims on the concrete pipeline *)

(** The example scenario, first half: [sink.OnServiceUpdate(svc)] on
    [DiscoverySink{}]. *)
Lemma unwired_sink_is_noop_witness :
  sinks fresh !! 1 = Some emptySink /\
  On terminal_handler 1 1 (ServiceUpdate 7) fresh = Returned fresh None.
Proof.
  split; [reflexivity|].
  apply (unwired_sink_is_noop terminal_handler 0 1 emptySink); reflexivity.
Defined.

(** The example scenario, second half: [logConsumer.OnServiceDelete] is
    called once with [{ns1, svc1}]. *)
Lemma wired_sink_forwards_once_witness :
  On terminal_handler 1 1 (ServiceDelete svc1) (wired_to logConsumer) =
  Returned
    {| sinks := sinks (wired_to logConsumer);
       env := {| services := services env0;
                 workloads := workloads env0;
                 private := [ServiceDelete svc1] |};
       calls := [ {| caller := 1;
                     callee := OtherImpl logConsumer;
                     event := ServiceDelete svc1 |} ] |} None.
Proof.
  exact (proj2 (proj2
    (wired_sink_forwards_once terminal_handler 0 1
       {| Consumer := Some (OtherImpl logConsumer) |}
       (OtherImpl logConsumer) (ServiceDelete svc1) (wired_to logConsumer)
       eq_refl eq_refl)) logConsumer eq_refl).
Defined.

Lemma sink_errors_are_downstream_errors_witness :
  On terminal_handler 1 1 (ServiceDelete svc1) (wired_to snapshotStore) =
    Returned
      (record 1 (OtherImpl snapshotStore) (ServiceDelete svc1)
         (wired_to snapshotStore))
      (Some unavailable) /\
  exists x, terminal_handler x (ServiceDelete svc1) env0 =
            Some (env0, Some unavailable).
Proof.
  split; [reflexivity|].
  apply (proj2 (sink_errors_are_downstream_errors terminal_handler 1 1
    (ServiceDelete svc1) (wired_to snapshotStore)
    (record 1 (OtherImpl snapshotStore) (ServiceDelete svc1)
       (wired_to snapshotStore))
    unavailable)).
  reflexivity.
Defined.

Lemma AddConsumer_replaces_witness :
  sinks fresh !! 1 = Some emptySink /\
  exists w1 w2,
    AddConsumer 1 (Some (OtherImpl logConsumer)) fresh = Some w1 /\
    AddConsumer 1 (Some (OtherImpl snapshotStore)) w1 = Some w2 /\
    sinks w2 !! 1 = Some {| Consumer := Some (OtherImpl snapshotStore) |}.
Proof.
  split; [reflexivity|].
  destruct (AddConsumer_replaces terminal_handler 1 emptySink
              (Some (OtherImpl logConsumer)) (Some (OtherImpl snapshotStore))
              fresh eq_refl)
    as (w1 & w2 & H1 & H2 & _ & H3 & _).
  exists w1, w2. auto.
Defined.

(** C5, as the specification states it, fails: [AddConsumer(nil)] takes
    the wired sink 1 back to unwired. *)
Lemma AddConsumer_nil_returns_to_unwired :
  sink_state 1 (wired_to logConsumer) = Some Wired /\
  steps terminal_handler 1 [OpAddConsumer 1 None] (wired_to logConsumer) =
    Some fresh /\
  sink_state 1 fresh = Some Unwired.
Proof. split; [|split]; vm_compute; reflexivity. Qed.

Lemma chained_sinks_forward_to_terminal_witness :
  On terminal_handler 2 1 (WorkloadDelete svc1) (chain_to snapshotStore) =
  Returned
    {| sinks := sinks (chain_to snapshotStore);
       env := env0;
       calls := [ {| caller := 1; callee := SinkImpl 2;
                     event := WorkloadDelete svc1 |};
                  {| caller := 2; callee := OtherImpl snapshotStore;
                     event := WorkloadDelete svc1 |} ] |}
    (Some unavailable).
Proof.
  exact (proj1
    (chained_sinks_forward_to_terminal terminal_handler 0 1 2 snapshotStore
       {| Consumer := Some (SinkImpl 2) |}
       {| Consumer := Some (OtherImpl snapshotStore) |}
       (WorkloadDelete svc1) (chain_to snapshotStore)
       eq_refl eq_refl eq_refl eq_refl)).
Defined.


Lemma sink_does_not_mutate_payload_witness :
  services (env (record 1 (OtherImpl snapshotStore) (ServiceUpdate 7)
                   (wired_to snapshotStore))) !! 7 =
  services (env (wired_to snapshotStore)) !! 7.
Proof.
  apply (proj2 (proj2 (proj1
    (sink_does_not_mutate_payload terminal_handler 1 1
       (wired_to snapshotStore)
       (record 1 (OtherImpl snapshotStore) (ServiceUpdate 7)
          (wired_to snapshotStore))
       (Some unavailable)) 7 eq_refl))).
  intros [] en en' r'; simpl; intros [= <- _]; reflexivity.
Defined.

(** What the caller sees after the call is what the consumer left: a
    consumer that writes through the pointer is seen to have written. *)
Example relabel_seen_through_sink :
  exists w' r,
    OnServiceUpdate relabel_handler 1 1 7 wired_to_relabel = Returned w' r /\
    services (env wired_to_relabel) !! 7 = Some "web" /\
    services (env w') !! 7 = Some "relabelled".
Proof. eexists _, _. split; [reflexivity|]. split; reflexivity. Qed.

Lemma AddConsumer_nil_detaches_witness :
  exists w',
    AddConsumer 1 None (wired_to logConsumer) = Some w' /\
    sinks w' !! 1 = Some emptySink /\
    forall fuel e, On terminal_handler (S fuel) 1 e w' = Returned w' None.
Proof.
  exact (AddConsumer_nil_detaches terminal_handler 1
           {| Consumer := Some (OtherImpl logConsumer) |}
           (wired_to logConsumer) eq_refl).
Defined.

(** * Pipelines: chains, rings, wiring order, late attachment *)

Section PipelineProperties.

Context {ServiceInfo WorkloadInfo Err Ext Private : Type}.

Variable handler :
  Ext -> Event -> @Env ServiceInfo WorkloadInfo Private ->
  option (@Env ServiceInfo WorkloadInfo Private * @error Err).

Local Abbreviation World := (@World ServiceInfo WorkloadInfo Ext Private).
Local Abbreviation Impl := (@Impl Ext).

Implicit Types (w : World) (c : Impl) (e : Event).
Implicit Types (s t : nat) (fuel : nat) (path : list nat).

Lemma last_cons path : forall s t,
  List.last (t :: path) s = List.last path t.
Proof.
  induction path as [|u path IH]; intros s t; [reflexivity|].
  change (List.last (t :: u :: path) s) with (List.last (u :: path) s).
  rewrite (IH s u), (IH t u). reflexivity.
Qed.

(** An event pushed in at the head of a chain comes out at its end: each
    sink on the way makes its one call and nothing else. *)
Lemma On_along_chain path : forall s w fuel e (final : option Impl),
  linked (sinks w) (s :: path) final ->
  On handler (S (length path) + fuel) s e w =
  let w' := {| sinks := sinks w;
               env := env w;
               calls := calls w ++ links (s :: path) e |} in
  match final with
  | Some c => invoke handler fuel c e (record (List.last path s) c e w')
  | None => Returned w' None
  end.
Proof.
  induction path as [|t path IH]; intros s w fuel e final [Hs Hrest].
  - simpl in *. rewrite On_unfold, Hs. simpl.
    rewrite app_nil_r. destruct w; simpl. reflexivity.
  - cbn [length Nat.add]. rewrite On_unfold, Hs. cbn [Consumer].
    unfold invoke at 1. cbn [dispatch].
    etransitivity;
      [exact (IH t (record s (SinkImpl t) e w) fuel e final Hrest)|].
    cbn [record sinks env calls]. rewrite <- app_assoc, last_cons.
    reflexivity.
Qed.

(** X1: a chain of any length that ends at a consumer [x] which is not a
    sink hands the event to [x] once; memory and error are those of [x],
    and the calls noted are the hops of the chain in order. *)
Theorem chain_reaches_terminal path s w fuel e x :
  linked (sinks w) (s :: path) (Some (OtherImpl x)) ->
  On handler (S (length path) + fuel) s e w =
  match handler x e (env w) with
  | Some (en', r) =>
      Returned
        {| sinks := sinks w;
           env := en';
           calls := calls w ++ links (s :: path) e ++
                    [ {| caller := List.last path s;
                         callee := OtherImpl x;
                         event := e |} ] |} r
  | None => Panicked
  end.
Proof.
  intros H. rewrite (On_along_chain _ _ _ _ _ _ H).
  unfold invoke, dispatch, deliver. cbn [record sinks env calls].
  destruct (handler x e (env w)) as [[en' r]|]; [|reflexivity].
  rewrite <- app_assoc. reflexivity.
Qed.

(** X2: a chain whose last sink is unwired drops the event without a
    word: the head of the chain, though wired, returns a nil error, no
    consumer is reached and the memory is as it was. *)
Theorem chain_with_unwired_end_drops path s w fuel e :
  linked (sinks w) (s :: path) None ->
  On handler (S (length path) + fuel) s e w =
  Returned
    {| sinks := sinks w;
       env := env w;
       calls := calls w ++ links (s :: path) e |} None.
Proof. intros H. rewrite (On_along_chain _ _ _ _ _ _ H). reflexivity. Qed.

(** X3: a [Consumer] field that holds a nil [*DiscoverySink] is not nil:
    the nil test passes, the call is made on the nil receiver, and the
    event method panics, wherever in the chain that sink is. *)
Theorem chain_with_nil_sink_panics path s w fuel e p :
  linked (sinks w) (s :: path) (Some (SinkImpl p)) ->
  sinks w !! p = None ->
  On handler (S (S (length path)) + fuel) s e w = Panicked.
Proof.
  intros H Hp.
  replace (S (S (length path)) + fuel) with (S (length path) + S fuel) by lia.
  rewrite (On_along_chain _ _ _ _ _ _ H).
  unfold invoke, dispatch. rewrite On_unfold. cbn [record sinks].
  rewrite Hp. reflexivity.
Qed.

(** X4: when the sinks reachable from [s] are all wired to sinks, as in
    a sink wired to itself or a ring of sinks, no event method called on
    [s] returns or panics: the calls nest beyond every bound. *)
Theorem ring_never_returns (ring : nat -> Prop) fuel : forall s e w,
  closed (sinks w) ring ->
  ring s ->
  On handler fuel s e w = OutOfFuel.
Proof.
  induction fuel as [|fuel IH]; intros s e w Hclosed Hs.
  - apply On_zero.
  - destruct (Hclosed s Hs) as (q & Hq & Hring).
    rewrite On_unfold, Hq. cbn [Consumer]. unfold invoke, dispatch.
    apply IH; assumption.
Qed.

(** X5: wiring two different sinks gives the same world in either
    order. *)
Theorem AddConsumer_commutes s t (c1 c2 : option Impl) w :
  s <> t ->
  AddConsumer s c1 w ≫= AddConsumer t c2 =
  AddConsumer t c2 w ≫= AddConsumer s c1.
Proof.
  intros Hne. unfold AddConsumer.
  destruct (sinks w !! s) as [ds|] eqn:Hs;
    destruct (sinks w !! t) as [dt|] eqn:Ht; simpl;
    rewrite ?lookup_insert_ne by congruence; rewrite ?Hs, ?Ht;
    try reflexivity.
  rewrite (insert_insert_ne (sinks w) s t) by exact Hne. reflexivity.
Qed.






(** X8: an event method returns only when the chain of sinks from its
    receiver ends, within the depth allowed, at an unwired sink or at a
    consumer that is not a sink. *)
Theorem returns_only_along_finite_chain fuel : forall s e w w' r,
  On handler fuel s e w = Returned w' r ->
  exists path,
    length path < fuel /\
    (linked (sinks w) (s :: path) None \/
     exists x, linked (sinks w) (s :: path) (Some (OtherImpl x))).
Proof.
  induction fuel as [|fuel IH]; intros s e w w' r.
  - rewrite On_zero. discriminate.
  - rewrite On_unfold.
    destruct (sinks w !! s) as [[[[p|x]|]]|] eqn:Hs; cbn [Consumer];
      [| | |discriminate].
    + unfold invoke, dispatch. intros H.
      apply IH in H as (path & Hlen & Hend). cbn [record sinks] in Hend.
      exists (p :: path). split; [simpl; lia|].
      destruct Hend as [Hend|[x Hend]]; [left|right; exists x];
        (split; [exact Hs|exact Hend]).
    + intros _. exists []. split; [simpl; lia|].
      right. exists x. split; [exact Hs|exact I].
    + intros _. exists []. split; [simpl; lia|].
      left. split; [exact Hs|exact I].
Qed.

End PipelineProperties.

Lemma chain_reaches_terminal_witness :
  On terminal_handler 2 1 (ServiceUpdate 7) (chain_to logConsumer) =
  Returned
    {| sinks := sinks (chain_to logConsumer);
       env := {| services := services env0;
                 workloads := workloads env0;
                 private := [ServiceUpdate 7] |};
       calls := [ {| caller := 1; callee := SinkImpl 2;
                     event := ServiceUpdate 7 |};
                  {| caller := 2; callee := OtherImpl logConsumer;
                     event := ServiceUpdate 7 |} ] |} None.
Proof.
  exact (chain_reaches_terminal terminal_handler [2] 1
           (chain_to logConsumer) 0 (ServiceUpdate 7) logConsumer
           (conj eq_refl (conj eq_refl I))).
Defined.

Lemma chain_with_unwired_end_drops_witness :
  On terminal_handler 3 1 (WorkloadUpdate 8) open_ended =
  Returned
    {| sinks := sinks open_ended;
       env := env0;
       calls := [ {| caller := 1; callee := SinkImpl 2;
                     event := WorkloadUpdate 8 |};
                  {| caller := 2; callee := SinkImpl 3;
                     event := WorkloadUpdate 8 |} ] |} None.
Proof.
  exact (chain_with_unwired_end_drops terminal_handler [2; 3] 1
           open_ended 0 (WorkloadUpdate 8)
           (conj eq_refl (conj eq_refl (conj eq_refl I)))).
Defined.

Lemma chain_with_nil_sink_panics_witness :
  On terminal_handler 3 1 (ServiceDelete svc1) nil_ended = Panicked.
Proof.
  exact (chain_with_nil_sink_panics terminal_handler [2] 1
           nil_ended 0 (ServiceDelete svc1) 0
           (conj eq_refl (conj eq_refl I)) eq_refl).
Defined.

Lemma ring_never_returns_witness :
  On terminal_handler 1000 1 (ServiceUpdate 7) ring12 = OutOfFuel.
Proof.
  apply (ring_never_returns terminal_handler (fun p => p = 1 \/ p = 2)).
  - intros p [->| ->]; eexists; (split; [reflexivity|]); auto.
  - left. reflexivity.
Defined.

Lemma AddConsumer_commutes_witness :
  1 <> 2 /\
  AddConsumer 1 (Some (OtherImpl logConsumer)) open_ended ≫=
    AddConsumer 2 None =
  AddConsumer 2 None open_ended ≫=
    AddConsumer 1 (Some (OtherImpl logConsumer)).
Proof.
  split; [discriminate|].
  apply (AddConsumer_commutes 1 2 (Some (OtherImpl logConsumer)) None
           open_ended).
  discriminate.
Defined.



(** * Package [tls] *)

Section TLSProperties.

Context {Sys Curve PrivateKey PublicKey Time Err : Type}.

Variable L : @Lib Sys Curve PrivateKey PublicKey Time Err.
Variable g : @Vars Curve.

Lemma newCert_ok commonName sys now sys1 serial sys2 :
  time_Now L sys = (now, sys1) ->
  rand_Int L (2 ^ 128) sys1 = (inl serial, sys2) ->
  newCert L g commonName sys = ((template L g commonName now serial, None), sys2).
Proof.
  intros Hnow Hint. unfold newCert. rewrite Hnow.
  change (Z.shiftl 1 128) with (2 ^ 128)%Z. rewrite Hint. reflexivity.
Qed.

Lemma newCert_inv commonName sys csr oerr sys' :
  newCert L g commonName sys = ((csr, oerr), sys') ->
  exists now sys1,
    time_Now L sys = (now, sys1) /\
    ((exists cause,
        rand_Int L (2 ^ 128) sys1 = (inr cause, sys') /\
        csr = emptyCertificate L /\
        oerr = Some (errors_Wrap L cause "failed to generate serial number")) \/
     (exists serial,
        rand_Int L (2 ^ 128) sys1 = (inl serial, sys') /\
        csr = template L g commonName now serial /\
        oerr = None)).
Proof.
  unfold newCert. destruct (time_Now L sys) as [now sys1] eqn:Hnow.
  change (Z.shiftl 1 128) with (2 ^ 128)%Z.
  destruct (rand_Int L (2 ^ 128) sys1) as [[serial|cause] sys2] eqn:Hint;
    intros [= <- <- <-]; exists now, sys1; (split; [reflexivity|]).
  - right. exists serial. auto.
  - left. exists cause. auto.
Qed.

(** X9: [NewSelfSignedCert] returns an error exactly when one of its six
    library calls fails after those before it succeeded; the pair
    returned is then [KeyPair{}], the error is that call's error wrapped
    once with that call's message, and no later call is made. *)
Theorem NewSelfSignedCert_error commonName sys kp err sys' :
  NewSelfSignedCert L g commonName sys = ((kp, Some err), sys') <->
  kp = emptyKeyPair /\ failure L g commonName sys err sys'.
Proof.
  unfold NewSelfSignedCert, generateCert, marshalKey. split.
  - destruct (ecdsa_GenerateKey L (DefaultEllipticCurve g) sys)
      as [[key|cause] sys1] eqn:Hkey.
    2:{ intros [= <- <- <-]. split; [reflexivity|].
        apply failed_GenerateKey. exact Hkey. }
    destruct (newCert L g commonName sys1) as [[csr oerr] sys3] eqn:Hcsr.
    apply newCert_inv in Hcsr
      as (now & sys2 & Hnow & [(cause & Hint & -> & ->)|(serial & Hint & -> & ->)]).
    { intros [= <- <- <-]. split; [reflexivity|].
      eapply failed_Int; eassumption. }
    destruct (x509_CreateCertificate L _ _ _ key sys3)
      as [[der|cause] sys4] eqn:Hder.
    2:{ intros [= <- <- <-]. split; [reflexivity|].
        eapply failed_CreateCertificate; eassumption. }
    destruct (pem_Encode L "CERTIFICATE" der) as [cert|cause] eqn:Hcert.
    2:{ intros [= <- <- <-]. split; [reflexivity|].
        eapply failed_Encode_cert; eassumption. }
    destruct (x509_MarshalECPrivateKey L key) as [keyDer|cause] eqn:Hmar.
    2:{ intros [= <- <- <-]. split; [reflexivity|].
        eapply failed_MarshalECPrivateKey; eassumption. }
    destruct (pem_Encode L "EC PRIVATE KEY" keyDer) as [keyPem|cause] eqn:Hk.
    { discriminate. }
    intros [= <- <- <-]. split; [reflexivity|].
    eapply failed_Encode_key; eassumption.
  - intros [-> Hfail].
    destruct Hfail as
      [ cause sys' Hkey
      | key sys1 now sys2 cause sys' Hkey Hnow Hint
      | key sys1 now sys2 serial sys3 cause sys' Hkey Hnow Hint Hder
      | key sys1 now sys2 serial sys3 der cause sys' Hkey Hnow Hint Hder Hcert
      | key sys1 now sys2 serial sys3 der cert cause sys'
          Hkey Hnow Hint Hder Hcert Hmar
      | key sys1 now sys2 serial sys3 der cert keyDer cause sys'
          Hkey Hnow Hint Hder Hcert Hmar Hk ];
      rewrite Hkey; try reflexivity.
    + unfold newCert. rewrite Hnow.
      change (Z.shiftl 1 128) with (2 ^ 128)%Z. rewrite Hint. reflexivity.
    + rewrite (newCert_ok _ _ _ _ _ _ Hnow Hint), Hder. reflexivity.
    + rewrite (newCert_ok _ _ _ _ _ _ Hnow Hint), Hder, Hcert. reflexivity.
    + rewrite (newCert_ok _ _ _ _ _ _ Hnow Hint), Hder, Hcert, Hmar.
      reflexivity.
    + rewrite (newCert_ok _ _ _ _ _ _ Hnow Hint), Hder, Hcert, Hmar, Hk.
      reflexivity.
Qed.

(** X10: [NewSelfSignedCert] returns a nil error exactly when all six
    library calls succeed; the pair is then the PEM block of the
    certificate and the PEM block of the key, the certificate is made
    from one template as subject and as issuer, for the public half of
    the key in the pair and signed with that key, and the template has
    the common name asked for and is valid for [DefaultValidityPeriod]
    from the clock reading taken after the key was made. *)
Theorem NewSelfSignedCert_success commonName sys kp sys' :
  NewSelfSignedCert L g commonName sys = ((kp, None), sys') <->
  issued L g commonName sys kp sys'.
Proof.
  unfold NewSelfSignedCert, generateCert, marshalKey, issued. split.
  - destruct (ecdsa_GenerateKey L (DefaultEllipticCurve g) sys)
      as [[key|cause] sys1] eqn:Hkey; [|discriminate].
    destruct (newCert L g commonName sys1) as [[csr oerr] sys3] eqn:Hcsr.
    apply newCert_inv in Hcsr
      as (now & sys2 & Hnow & [(cause & Hint & -> & ->)|(serial & Hint & -> & ->)]);
      [discriminate|].
    destruct (x509_CreateCertificate L _ _ _ key sys3)
      as [[der|cause] sys4] eqn:Hder; [|discriminate].
    destruct (pem_Encode L "CERTIFICATE" der) as [cert|cause] eqn:Hcert;
      [|discriminate].
    destruct (x509_MarshalECPrivateKey L key) as [keyDer|cause] eqn:Hmar;
      [|discriminate].
    destruct (pem_Encode L "EC PRIVATE KEY" keyDer) as [keyPem|cause] eqn:Hk;
      [|discriminate].
    intros [= <- <-]. exists key, sys1, now, sys2, serial, sys3, der, keyDer.
    simpl. auto 10.
  - intros (key & sys1 & now & sys2 & serial & sys3 & der & keyDer &
            Hkey & Hnow & Hint & Hder & Hcert & Hmar & Hk).
    rewrite Hkey, (newCert_ok _ _ _ _ _ _ Hnow Hint), Hder, Hcert, Hmar, Hk.
    destruct kp; reflexivity.
Qed.

(** X11: [newCert] asks [rand.Int] for a number below [1 << 128]: when
    [rand.Int] keeps to its bound, the serial number of the template is
    at least 0 and less than 2^128, and the template is the zero value
    with no serial number when [newCert] fails. *)
Theorem newCert_serial_number_bound commonName sys csr oerr sys' :
  (forall sys1 n sys2,
     rand_Int L (2 ^ 128) sys1 = (inl n, sys2) -> (0 <= n < 2 ^ 128)%Z) ->
  newCert L g commonName sys = ((csr, oerr), sys') ->
  match oerr with
  | None => exists n, SerialNumber csr = Some n /\ (0 <= n < 2 ^ 128)%Z
  | Some _ => csr = emptyCertificate L /\ SerialNumber csr = None
  end.
Proof.
  intros Hbound H.
  apply newCert_inv in H
    as (now & sys1 & _ & [(cause & _ & -> & ->)|(serial & Hint & -> & ->)]).
  - split; reflexivity.
  - exists serial. split; [reflexivity|]. eapply Hbound. exact Hint.
Qed.

End TLSProperties.

Lemma NewSelfSignedCert_error_witness :
  NewSelfSignedCert toyLib (initVars toyLib) "konvoy-cp" 2 =
    ((emptyKeyPair,
      Some "failed to generate TLS certificate: entropy exhausted"), 0) /\
  failure toyLib (initVars toyLib) "konvoy-cp" 2
    "failed to generate TLS certificate: entropy exhausted" 0.
Proof.
  split; [reflexivity|].
  apply (proj1 (NewSelfSignedCert_error toyLib (initVars toyLib)
                  "konvoy-cp" 2 emptyKeyPair
                  "failed to generate TLS certificate: entropy exhausted" 0)).
  reflexivity.
Defined.

Lemma NewSelfSignedCert_success_witness :
  NewSelfSignedCert toyLib (initVars toyLib) "konvoy-cp" 3 =
    (({| CertPEM := [Byte.x2d; Byte.x30; Byte.x82];
         KeyPEM := [Byte.x2d; Byte.x30; Byte.x77] |}, None), 0) /\
  issued toyLib (initVars toyLib) "konvoy-cp" 3
    {| CertPEM := [Byte.x2d; Byte.x30; Byte.x82];
       KeyPEM := [Byte.x2d; Byte.x30; Byte.x77] |} 0.
Proof.
  split; [reflexivity|].
  apply (proj1 (NewSelfSignedCert_success toyLib (initVars toyLib)
                  "konvoy-cp" 3 _ 0)).
  reflexivity.
Defined.

Lemma newCert_serial_number_bound_witness :
  exists n,
    SerialNumber (fst (fst (newCert toyLib (initVars toyLib) "konvoy-cp" 5)))
      = Some n /\
    (0 <= n < 2 ^ 128)%Z.
Proof.
  apply (newCert_serial_number_bound toyLib (initVars toyLib) "konvoy-cp" 5
           _ None 4).
  - intros [|sys1] n sys2; simpl; intros [= <- _].
    apply Z.mod_pos_bound. reflexivity.
  - reflexivity.
Defined.

Lemma returns_only_along_finite_chain_witness :
  exists path,
    length path < 2 /\
    (linked (sinks (chain_to snapshotStore)) (1 :: path) None \/
     exists x,
       linked (sinks (chain_to snapshotStore)) (1 :: path)
         (Some (OtherImpl x))).
Proof.
  exact (returns_only_along_finite_chain terminal_handler 2 1
           (ServiceDelete svc1) (chain_to snapshotStore)
           (record 2 (OtherImpl snapshotStore) (ServiceDelete svc1)
              (record 1 (SinkImpl 2) (ServiceDelete svc1)
                 (chain_to snapshotStore)))
           (Some unavailable) eq_refl).
Defined.

(** * Sinks under consumers that hold sinks *)

Section ReentrantProperties.

Context {ServiceInfo WorkloadInfo Err Ext Private : Type}.

Local Abbreviation World := (@World ServiceInfo WorkloadInfo Ext Private).
Local Abbreviation Impl := (@Impl Ext).

Variable handler : Ext -> Event -> World -> option (World * @error Err).

Implicit Types (w : World) (c : Impl) (e : Event).
Implicit Types (s t : nat) (fuel : nat).

Lemma reentrant_On_unfold fuel s e w :
  Reentrant.On handler (S fuel) s e w =
  match sinks w !! s with
  | None => Panicked
  | Some d =>
      match Consumer d with
      | Some c => Reentrant.invoke handler fuel c e (record s c e w)
      | None => Returned w None
      end
  end.
Proof. destruct e; reflexivity. Qed.

Lemma reentrant_On_zero s e w : Reentrant.On handler 0 s e w = OutOfFuel.
Proof. destruct e; reflexivity. Qed.

(** The sinks write nothing but the history: the world an event method
    hands back is the one it was given, the calls made apart, or the one
    the consumer at the end of the chain handed back, and that consumer
    was given the sinks and the memory of the caller. *)
Lemma reentrant_On_origin fuel : forall s e w w' r,
  Reentrant.On handler fuel s e w = Returned w' r ->
  (sinks w' = sinks w /\ env w' = env w /\ r = None) \/
  exists x w0,
    sinks w0 = sinks w /\ env w0 = env w /\ handler x e w0 = Some (w', r).
Proof.
  induction fuel as [|fuel IH]; intros s e w w' r.
  - rewrite reentrant_On_zero. discriminate.
  - rewrite reentrant_On_unfold.
    destruct (sinks w !! s) as [d|]; [|discriminate].
    destruct (Consumer d) as [[p|x]|];
      unfold Reentrant.invoke, Reentrant.dispatch.
    + intros H. apply IH in H. exact H.
    + unfold Reentrant.deliver.
      destruct (handler x e (record s (OtherImpl x) e w))
        as [[w1 r1]|] eqn:Hh; [|discriminate].
      intros [= <- <-]. right.
      exists x, (record s (OtherImpl x) e w). auto.
    + intros [= <- <-]. left. auto.
Qed.

Lemma AddConsumer_state t (c : option Impl) w w' s :
  AddConsumer t c w = Some w' ->
  sink_state s w' =
    if decide (t = s)
    then Some (match c with Some _ => Wired | None => Unwired end)
    else sink_state s w.
Proof.
  unfold AddConsumer.
  destruct (sinks w !! t) as [d|] eqn:Ht; [|discriminate].
  intros [= <-]. unfold sink_state. simpl.
  rewrite lookup_insert. destruct (decide (t = s)); [|reflexivity].
  simpl. unfold state_of. simpl. destruct c; reflexivity.
Qed.

(** C10, as the code has it: the event methods assign no [Consumer]
    field.  The sinks after an event method returns, with an error or
    without, are the sinks before it or the sinks the consumer at the end
    of the chain left when handed the sinks before it; an unwired
    receiver hands back the world it was given; when the consumers leave
    the sinks alone every sink is as it was, the receiver's [Consumer]
    among them; and [AddConsumer] is the operation that writes it. *)
Theorem event_methods_write_no_sink fuel s e w w' r :
  Reentrant.On handler fuel s e w = Returned w' r ->
  (sinks w' = sinks w \/
   exists x w0, sinks w0 = sinks w /\ handler x e w0 = Some (w', r)) /\
  (forall d, sinks w !! s = Some d -> Consumer d = None -> w' = w) /\
  ((forall x e0 w0 w1 r0,
      handler x e0 w0 = Some (w1, r0) -> sinks w1 = sinks w0) ->
   sinks w' = sinks w /\
   Consumer <$> sinks w' !! s = Consumer <$> sinks w !! s) /\
  (forall (c : option Impl) w2,
     AddConsumer s c w = Some w2 ->
     Consumer <$> sinks w2 !! s = Some c).
Proof.
  intros H. split; [|split; [|split]].
  - apply reentrant_On_origin in H as [(Hs & _)|(x & w0 & Hs & _ & Hh)].
    + left. exact Hs.
    + right. exists x, w0. auto.
  - intros d Hd Hc. destruct fuel as [|fuel'].
    + rewrite reentrant_On_zero in H. discriminate.
    + rewrite reentrant_On_unfold, Hd, Hc in H. congruence.
  - intros Hframe.
    assert (sinks w' = sinks w) as Hsinks.
    { apply reentrant_On_origin in H as [(Hs & _)|(x & w0 & Hs & _ & Hh)].
      - exact Hs.
      - rewrite (Hframe _ _ _ _ _ Hh). exact Hs. }
    rewrite Hsinks. split; reflexivity.
  - intros c w2. unfold AddConsumer.
    destruct (sinks w !! s); [|discriminate].
    intros [= <-]. simpl. rewrite lookup_insert_eq. reflexivity.
Qed.

(** C5, as the code has it: a sink is unwired or wired as its
    [Consumer] is nil or not; an event method makes no move of its own,
    the sinks after it being those before it or those the consumer
    reached left; [AddConsumer] moves its receiver and no other sink, to
    wired with a consumer and to unwired with nil; so a wired sink stays
    wired through every run of operations in which it is not handed nil
    and no consumer takes it out of the wired state during an event. *)
Theorem wired_until_detached fuel s :
  (forall d : @DiscoverySink Ext,
     (state_of d = Unwired <-> Consumer d = None) /\
     (state_of d = Wired <-> Consumer d <> None)) /\
  (forall t e w w',
     Reentrant.step handler fuel (OpEvent t e) w = Some w' ->
     sinks w' = sinks w \/
     exists x w0 r, sinks w0 = sinks w /\ handler x e w0 = Some (w', r)) /\
  (forall t (c : option Impl) w w',
     Reentrant.step handler fuel (OpAddConsumer t c) w = Some w' ->
     sink_state s w' =
       if decide (t = s)
       then Some (match c with Some _ => Wired | None => Unwired end)
       else sink_state s w) /\
  (forall ops w w',
     (forall x e w0 w1 r,
        handler x e w0 = Some (w1, r) ->
        sink_state s w0 = Some Wired -> sink_state s w1 = Some Wired) ->
     Forall (fun op => ~ detaches s op) ops ->
     sink_state s w = Some Wired ->
     Reentrant.steps handler fuel ops w = Some w' ->
     sink_state s w' = Some Wired).
Proof.
  split; [|split; [|split]].
  - intros [[c|]]; unfold state_of; simpl; split; split;
      congruence || discriminate || auto.
  - intros t e w w'. simpl.
    destruct (Reentrant.On handler fuel t e w) as [w1 r| |] eqn:H;
      try discriminate.
    intros [= <-].
    apply reentrant_On_origin in H as [(Hs & _)|(x & w0 & Hs & _ & Hh)].
    + left. exact Hs.
    + right. exists x, w0, r. auto.
  - intros t c w w'. simpl. apply AddConsumer_state.
  - intros ops w w' Hkeep Hops. revert w.
    induction Hops as [|op ops Hop Hops IH]; intros w Hw; simpl.
    + intros [= <-]. exact Hw.
    + destruct (Reentrant.step handler fuel op w) as [w1|] eqn:Hstep;
        [|discriminate].
      apply IH. destruct op as [t c|t e]; simpl in Hstep.
      * rewrite (AddConsumer_state _ _ _ _ s Hstep).
        destruct (decide (t = s)) as [->|]; [|exact Hw].
        destruct c; [reflexivity|]. exfalso. apply Hop. reflexivity.
      * destruct (Reentrant.On handler fuel t e w) as [w2 r| |] eqn:H;
          try discriminate.
        injection Hstep as ->.
        apply reentrant_On_origin in H as [(Hs & _)|(x & w0 & Hs & _ & Hh)].
        -- unfold sink_state in *. rewrite Hs. exact Hw.
        -- apply (Hkeep _ _ _ _ _ Hh).
           unfold sink_state in *. rewrite Hs. exact Hw.
Qed.

End ReentrantProperties.

(** The consumers that hold no sink give the first part back. *)
Lemma reentrant_On_lift {ServiceInfo WorkloadInfo Err Ext Private : Type}
    (h : Ext -> Event -> @Env ServiceInfo WorkloadInfo Private ->
         option (@Env ServiceInfo WorkloadInfo Private * @error Err)) fuel :
  forall s e w,
    Reentrant.On (Reentrant.lift h) fuel s e w = On h fuel s e w.
Proof.
  induction fuel as [|fuel IH]; intros s e w.
  - rewrite reentrant_On_zero, On_zero. reflexivity.
  - rewrite reentrant_On_unfold, On_unfold.
    destruct (sinks w !! s) as [d|]; [|reflexivity].
    destruct (Consumer d) as [[p|x]|]; [| |reflexivity].
    + apply IH.
    + unfold Reentrant.invoke, Reentrant.dispatch, Reentrant.deliver,
        Reentrant.lift, invoke, dispatch, deliver.
      destruct (h x e (env (record s (OtherImpl x) e w))) as [[en' r]|];
        reflexivity.
Qed.

(** C10, as the specification states it, fails: the consumer of sink 1
    calls [AddConsumer(nil)] on it while it handles the event, and the
    [Consumer] field of sink 1 is nil when [OnServiceUpdate] returns. *)
Lemma event_method_returns_with_sink_detached :
  Consumer <$> sinks held_by_detacher !! 1 = Some (Some (OtherImpl tt)) /\
  Reentrant.OnServiceUpdate detach_handler 1 1 7 held_by_detacher =
    Returned
      {| sinks := {[ 1 := emptySink ]};
         env := env0;
         calls := [ {| caller := 1; callee := OtherImpl tt;
                       event := ServiceUpdate 7 |} ] |}
      None /\
  Consumer <$> ({[ 1 := emptySink ]} : gmap nat (@DiscoverySink unit)) !! 1 =
    Some None.
Proof. split; [|split]; vm_compute; reflexivity. Qed.

Lemma event_methods_write_no_sink_witness :
  Reentrant.On (Reentrant.lift terminal_handler) 1 1 (ServiceDelete svc1)
    (wired_to snapshotStore) =
    Returned
      (record 1 (OtherImpl snapshotStore) (ServiceDelete svc1)
         (wired_to snapshotStore))
      (Some unavailable) /\
  sinks (record 1 (OtherImpl snapshotStore) (ServiceDelete svc1)
           (wired_to snapshotStore)) =
    sinks (wired_to snapshotStore) /\
  Consumer <$>
    sinks (record 1 (OtherImpl snapshotStore) (ServiceDelete svc1)
             (wired_to snapshotStore)) !! 1 =
    Some (Some (OtherImpl snapshotStore)).
Proof.
  split; [reflexivity|].
  apply (proj1 (proj2 (proj2
    (event_methods_write_no_sink (Reentrant.lift terminal_handler) 1 1
       (ServiceDelete svc1) (wired_to snapshotStore)
       (record 1 (OtherImpl snapshotStore) (ServiceDelete svc1)
          (wired_to snapshotStore))
       (Some unavailable) eq_refl)))).
  intros x e0 w0 w1 r0. unfold Reentrant.lift.
  destruct (terminal_handler x e0 (env w0)) as [[en' r']|];
    [|discriminate].
  intros [= <- _]. reflexivity.
Defined.

(** Sink 1 is handed from one consumer to the other during the first
    event and rewired from outside after it, and is wired all along. *)
Lemma wired_until_detached_witness :
  exists w',
    Reentrant.steps handover_handler 1
      [ OpEvent 1 (ServiceUpdate 7);
        OpAddConsumer 1 (Some (OtherImpl true));
        OpEvent 1 (ServiceDelete svc1) ]
      held_by_first = Some w' /\
    sink_state 1 w' = Some Wired.
Proof.
  eexists. split; [reflexivity|].
  eapply (proj2 (proj2 (proj2
    (wired_until_detached handover_handler 1 1)))
    [ OpEvent 1 (ServiceUpdate 7);
      OpAddConsumer 1 (Some (OtherImpl true));
      OpEvent 1 (ServiceDelete svc1) ]
    held_by_first).
  - intros [|] e w0 w1 r; unfold handover_handler, AddConsumer.
    + destruct (sinks w0 !! 1); [|discriminate].
      intros [= <- _] _. unfold sink_state. simpl.
      rewrite lookup_insert_eq. reflexivity.
    + intros [= <- _] H. exact H.
  - repeat constructor; unfold detaches; discriminate.
  - reflexivity.
  - reflexivity.
Defined.
